(** * gather_tree: a shallow embedding of [scripts/gather_tree.py]

    The script walks a directory, builds a tree of [FileNode] and
    [DirectoryNode] values, writes it as JSON and prints a report.  This
    file embeds its functions in Gallina and proves properties of them.

    Modelling conventions.
    - A Python [str] is a [string]: the bytes of its UTF-8 encoding.  The
      order of two such byte strings is the order Python gives the texts
      (by code point).
    - A [pathlib.Path] is the list of its components; [name] is the last.
    - The filesystem is a record of the queries the script puts to it; each
      returns a value or raises.
    - [logging] calls append records to a list, in the order of emission.
    - Mutation of the [visited] set is explicit state passing: every scan
      returns the set as it left it.
    - Recursion is bounded by fuel; [None] is "recursion deeper than the
      fuel", never a result of the script.
    - [str.lower] is a parameter: every statement holds for whatever
      function lowers a text.
    - Left out: the parsing of the arguments, the handlers [setup_logging]
      installs (only the records logged are kept), and the time measured
      by [main]. *)

From stdpp Require Import gmap strings list sorting.
From Stdlib Require Import Ascii ZArith OrdersEx.

Set Default Proof Using "Type".
Set Warnings "-register-all".
Local Open Scope string_scope.
Local Open Scope list_scope.

(** ** Paths *)

Definition Path : Type := list string.

(** [Path.name]: the final component, the empty text for the root. *)
Fixpoint name (p : Path) : string :=
  match p with
  | [] => EmptyString
  | [c] => c
  | _ :: p' => name p'
  end.

(** ** Exceptions *)

(** Exception classes raised by the [pathlib] queries: [OSError], its
    subclass [PermissionError], and [RuntimeError] ([resolve] on a loop of
    symbolic links). *)
Inductive fs_exn : Type :=
| OSError
| PermissionError
| RuntimeError.

(** [isinstance e cls], with [PermissionError] a subclass of [OSError]. *)
Definition isinstance (e cls : fs_exn) : bool :=
  match cls, e with
  | OSError, (OSError | PermissionError) => true
  | PermissionError, PermissionError => true
  | RuntimeError, RuntimeError => true
  | _, _ => false
  end.

(** [except (c1, c2, ...)] catches [e]. *)
Definition catches (classes : list fs_exn) (e : fs_exn) : bool :=
  existsb (isinstance e) classes.

Inductive result (E A : Type) : Type :=
| Return (a : A)
| Raise (e : E).
Arguments Return {E A} a.
Arguments Raise {E A} e.

(** ** The data classes *)

Inductive Node : Type :=
| FileNode (name : string) (type : string)
| DirectoryNode (name : string) (type : string) (children : list Node).

Record TreeStructure : Type := mkTreeStructure { root : Node }.

Definition node_name (n : Node) : string :=
  match n with
  | FileNode nm _ => nm
  | DirectoryNode nm _ _ => nm
  end.

Definition node_type (n : Node) : string :=
  match n with
  | FileNode _ ty => ty
  | DirectoryNode _ ty _ => ty
  end.

(** [isinstance(node, DirectoryNode)] *)
Definition is_DirectoryNode (n : Node) : bool :=
  match n with
  | DirectoryNode _ _ _ => true
  | FileNode _ _ => false
  end.

(** ** Logging *)

Inductive level : Type := INFO | WARNING | ERROR.

(** The format strings of the script, with their arguments; the texts of
    the two [ValueError]s are among them, and [Invalid_input] wraps one. *)
Inductive message : Type :=
| Symlink_cycle_detected (path : Path)
| Could_not_resolve_symlink (path : Path) (e : fs_exn)
| Cycle_detected (path : Path)
| Could_not_access (entry : Path) (e : fs_exn)
| Could_not_read_directory (path : Path) (e : fs_exn)
| Unknown_path_type (path : Path)
| Error_accessing (path : Path) (e : fs_exn)
| Scanning_directory (path : Path)
| Saving_tree_structure (path : Path)
| Tree_structure_saved
| Script_completed
| Path_does_not_exist (path : Path)
| Path_is_not_a_directory (path : Path)
| Invalid_input (msg : message)
| OS_error (e : fs_exn)
| Unexpected_error (e : fs_exn).

Definition log_record : Type := level * message.

(** ** The filesystem *)

Record FS : Type := mkFS {
  fs_is_symlink : Path → result fs_exn bool;
  fs_resolve : Path → result fs_exn Path;
  fs_is_file : Path → result fs_exn bool;
  fs_is_dir : Path → result fs_exn bool;
  fs_exists : Path → result fs_exn bool;
  (** entries of a directory as full paths, in the order the system
      yields them *)
  fs_iterdir : Path → result fs_exn (list Path);
  (** [open(path, 'w')] *)
  fs_open_w : Path → result fs_exn unit
}.

(** ** sorted(iterable, key=...) *)

(** Python's [sorted] is stable; insertion from the right is the stable
    sort, and every stable sort returns the same list. *)
Section Sorted.
Context {A : Type} (key : A → string).

Fixpoint insert_by (x : A) (l : list A) : list A :=
  match l with
  | [] => [x]
  | y :: l' =>
      if String.ltb (key y) (key x) then y :: insert_by x l' else x :: y :: l'
  end.

Definition sorted (l : list A) : list A := foldr insert_by [] l.

End Sorted.

(** ** scan_directory *)

Definition scan_result : Type := result fs_exn Node * gset Path * list log_record.

Section Walker.
(** [str.lower] *)
Variable lower : string → string.
Variable fs : FS.

(** [key=lambda p: p.name.lower()] *)
Definition entry_key (p : Path) : string := lower (name p).

(** The inner handler of the symlink branch:
    [except (OSError, RuntimeError)]. *)
Definition except_resolve (path : Path) (r : option scan_result) : option scan_result :=
  match r with
  | Some (Raise e, visited, log) =>
      if catches [OSError; RuntimeError] e
      then Some (Return (FileNode (name path) "file"), visited,
                 log ++ [(WARNING, Could_not_resolve_symlink path e)])
      else r
  | _ => r
  end.

(** The handler around the directory listing:
    [except (OSError, PermissionError)], which logs and raises again. *)
Definition except_listing (path : Path) (r : option scan_result) : option scan_result :=
  match r with
  | Some (Raise e, visited, log) =>
      if catches [OSError; PermissionError] e
      then Some (Raise e, visited, log ++ [(ERROR, Could_not_read_directory path e)])
      else r
  | _ => r
  end.

(** The outermost handler: [except (OSError, PermissionError)], which logs
    and raises again. *)
Definition except_access (path : Path) (r : option scan_result) : option scan_result :=
  match r with
  | Some (Raise e, visited, log) =>
      if catches [OSError; PermissionError] e
      then Some (Raise e, visited, log ++ [(ERROR, Error_accessing path e)])
      else r
  | _ => r
  end.

(** The loop over the sorted entries.  Each entry is scanned with
    [visited.copy()], so the set a child leaves behind is dropped. *)
Fixpoint scan_entries (scan : Path → gset Path → option scan_result)
    (entries : list Path) (visited : gset Path)
    (children : list Node) (log : list log_record)
    : option (result fs_exn (list Node) * list log_record) :=
  match entries with
  | [] => Some (Return children, log)
  | entry :: rest =>
      match scan entry visited with
      | None => None
      | Some (Return child, _, l) =>
          scan_entries scan rest visited (children ++ [child]) (log ++ l)
      | Some (Raise e, _, l) =>
          if catches [OSError; PermissionError] e
          then scan_entries scan rest visited children
                 (log ++ l ++ [(WARNING, Could_not_access entry e)])
          else Some (Raise e, log ++ l)
      end
  end.

(** The body of [scan_directory], with [scan_directory] itself for the
    recursive calls. *)
Definition scan_body (scan_directory : Path → gset Path → option scan_result)
    (path : Path) (visited : gset Path) : option scan_result :=
  except_access path
    match fs_is_symlink fs path with
    | Raise e => Some (Raise e, visited, [])
    | Return true =>
        except_resolve path
          match fs_resolve fs path with
          | Raise e => Some (Raise e, visited, [])
          | Return target =>
              if decide (target ∈ visited)
              then Some (Return (FileNode (name target) "file"), visited,
                         [(WARNING, Symlink_cycle_detected path)])
              else scan_directory target ({[target]} ∪ visited)
          end
    | Return false =>
        match fs_resolve fs path with
        | Raise e => Some (Raise e, visited, [])
        | Return resolved_path =>
            if decide (resolved_path ∈ visited)
            then Some (Return (FileNode (name resolved_path) "file"), visited,
                       [(WARNING, Cycle_detected path)])
            else
              let visited1 := {[resolved_path]} ∪ visited in
              match fs_is_file fs path with
              | Raise e => Some (Raise e, visited1, [])
              | Return true =>
                  Some (Return (FileNode (name resolved_path) "file"), visited1, [])
              | Return false =>
                  match fs_is_dir fs path with
                  | Raise e => Some (Raise e, visited1, [])
                  | Return true =>
                      except_listing path
                        match fs_iterdir fs path with
                        | Raise e => Some (Raise e, visited1, [])
                        | Return listing =>
                            let entries := sorted entry_key listing in
                            match scan_entries scan_directory entries visited1 [] [] with
                            | None => None
                            | Some (Raise e, log) => Some (Raise e, visited1, log)
                            | Some (Return children, log) =>
                                Some (Return (DirectoryNode (name resolved_path)
                                                "folder" children),
                                      visited1 ∖ {[resolved_path]}, log)
                            end
                        end
                  | Return false =>
                      Some (Return (FileNode (name resolved_path) "file"), visited1,
                            [(WARNING, Unknown_path_type path)])
                  end
              end
        end
    end.

Fixpoint scan_directory (fuel : nat) (path : Path) (visited : gset Path)
    : option scan_result :=
  match fuel with
  | 0 => None
  | S fuel' => scan_body (scan_directory fuel') path visited
  end.

End Walker.

(** ** gather_tree *)

(** What [gather_tree] and [main] see raised: the [ValueError]s of
    [gather_tree] itself, or an exception of the filesystem. *)
Inductive exn : Type :=
| ValueError (msg : message)
| FsError (e : fs_exn).

Section GatherTree.
Variable lower : string → string.
Variable fs : FS.

Definition gather_tree (fuel : nat) (folder_path : Path)
    : option (result exn TreeStructure * list log_record) :=
  match fs_exists fs folder_path with
  | Raise e => Some (Raise (FsError e), [])
  | Return false => Some (Raise (ValueError (Path_does_not_exist folder_path)), [])
  | Return true =>
      match fs_is_dir fs folder_path with
      | Raise e => Some (Raise (FsError e), [])
      | Return false =>
          Some (Raise (ValueError (Path_is_not_a_directory folder_path)), [])
      | Return true =>
          let log := [(INFO, Scanning_directory folder_path)] in
          match scan_directory lower fs fuel folder_path ∅ with
          | None => None
          | Some (Raise e, _, l) => Some (Raise (FsError e), log ++ l)
          | Some (Return root, _, l) =>
              if is_DirectoryNode root
              then Some (Return (mkTreeStructure root), log ++ l)
              else Some (Return (mkTreeStructure
                                   (DirectoryNode (name folder_path) "folder" [root])),
                         log ++ l)
          end
      end
  end.

End GatherTree.

(** ** Serialization *)

(** The values [dataclasses.asdict] produces from the three data classes:
    texts, lists, and dictionaries, whose keys keep their insertion order. *)
Inductive pyval : Type :=
| PStr (s : string)
| PList (items : list pyval)
| PDict (items : list (string * pyval)).

(** [asdict]: one key per field, in the order of declaration of the fields;
    data classes and lists inside are converted in turn. *)
Fixpoint asdict_node (n : Node) : pyval :=
  match n with
  | FileNode nm ty => PDict [("name", PStr nm); ("type", PStr ty)]
  | DirectoryNode nm ty children =>
      PDict [("name", PStr nm); ("type", PStr ty);
             ("children", PList (map asdict_node children))]
  end.

Definition asdict (t : TreeStructure) : pyval :=
  PDict [("root", asdict_node (root t))].

Definition dquote : ascii := "034"%char.
Definition backslash : ascii := "092"%char.
Definition newline : ascii := "010"%char.

Definition hex_digit (n : nat) : ascii :=
  match n with
  | 0 => "0" | 1 => "1" | 2 => "2" | 3 => "3" | 4 => "4" | 5 => "5" | 6 => "6"
  | 7 => "7" | 8 => "8" | 9 => "9" | 10 => "a" | 11 => "b" | 12 => "c"
  | 13 => "d" | 14 => "e" | _ => "f"
  end%char.

(** [ESCAPE_DCT] of [json.encoder], the table used when [ensure_ascii] is
    false: the quote, the backslash and the control characters below 0x20
    are replaced, every other character is kept. *)
Definition escape_char (c : ascii) : string :=
  let n := nat_of_ascii c in
  if decide (c = backslash) then String backslash (String backslash EmptyString)
  else if decide (c = dquote) then String backslash (String dquote EmptyString)
  else if decide (n = 8) then String backslash "b"
  else if decide (n = 12) then String backslash "f"
  else if decide (n = 10) then String backslash "n"
  else if decide (n = 13) then String backslash "r"
  else if decide (n = 9) then String backslash "t"
  else if decide (n < 32)
       then String backslash
              (String "u" (String "0" (String "0"
                 (String (hex_digit (n / 16)) (String (hex_digit (n mod 16)) EmptyString)))))
  else String c EmptyString.

Fixpoint escape (s : string) : string :=
  match s with
  | EmptyString => EmptyString
  | String c s' => escape_char c +:+ escape s'
  end.

(** [py_encode_basestring] *)
Definition encode_basestring (s : string) : string :=
  String dquote (escape s +:+ String dquote EmptyString).

Fixpoint spaces (n : nat) : string :=
  match n with
  | 0 => EmptyString
  | S n' => String " " (spaces n')
  end.

Section Encoder.
(** [indent=2] gives the unit of indentation [' ' * 2]; the separators are
    then [','] and [': ']. *)
Variable indent : nat.

Definition newline_indent (current_indent_level : nat) : string :=
  String newline (spaces (indent * current_indent_level)).

Definition item_separator (current_indent_level : nat) : string :=
  "," +:+ newline_indent current_indent_level.

Definition key_separator : string := ": ".

(** [_iterencode] with its list and dictionary cases. *)
Fixpoint iterencode (o : pyval) (current_indent_level : nat) : string :=
  match o with
  | PStr s => encode_basestring s
  | PList [] => "[]"
  | PList items =>
      "[" +:+ newline_indent (S current_indent_level)
      +:+ String.concat (item_separator (S current_indent_level))
            (map (λ v, iterencode v (S current_indent_level)) items)
      +:+ newline_indent current_indent_level +:+ "]"
  | PDict [] => "{}"
  | PDict items =>
      "{" +:+ newline_indent (S current_indent_level)
      +:+ String.concat (item_separator (S current_indent_level))
            (map (λ kv, encode_basestring kv.1 +:+ key_separator
                        +:+ iterencode kv.2 (S current_indent_level)) items)
      +:+ newline_indent current_indent_level +:+ "}"
  end.

End Encoder.

(** [DataclassJSONEncoder.default], on the one object it is called with:
    the tree. *)
Definition DataclassJSONEncoder_default (obj : TreeStructure) : pyval := asdict obj.

(** [json.dump(tree, f, indent=2, cls=DataclassJSONEncoder,
    ensure_ascii=False)]: the tree is no JSON type, so the encoder calls
    [default] and encodes what it returns. *)
Definition json_dump (tree : TreeStructure) : string :=
  iterencode 2 (DataclassJSONEncoder_default tree) 0.

(** [save_to_json]: the text written to [output_path], or the exception of
    [open], with the records logged. *)
Definition save_to_json (fs : FS) (tree : TreeStructure) (output_path : Path)
    : result fs_exn string * list log_record :=
  let log := [(INFO, Saving_tree_structure output_path)] in
  match fs_open_w fs output_path with
  | Raise e => (Raise e, log)
  | Return _ => (Return (json_dump tree), log ++ [(INFO, Tree_structure_saved)])
  end.

(** ** The report *)

Fixpoint count_nodes (node : Node) : nat * nat :=
  match node with
  | DirectoryNode _ _ children =>
      fold_left (λ acc child,
                   let '(files, dirs) := acc in
                   let '(f, d) := count_nodes child in
                   (files + f, dirs + d))
                children (0, 1)
  | FileNode _ _ => (1, 0)
  end.

(** What [print_report] prints: the two paths and the three totals. *)
Record report : Type := mkReport {
  source_folder : Path;
  output_file : Path;
  total_files : nat;
  total_directories : nat;
  total_items : nat
}.

Definition print_report (folder_path output_path : Path) (tree : TreeStructure) : report :=
  let '(files, dirs) := count_nodes (root tree) in
  mkReport folder_path output_path files dirs (files + dirs).

(** ** main *)

(** The effects of a run: the records logged, the files written by
    [save_to_json], the reports printed. *)
Record world : Type := mkWorld {
  w_log : list log_record;
  w_files : list (Path * string);
  w_stdout : list report
}.

Section Main.
Variable lower : string → string.
Variable fs : FS.

(** [main], after the arguments are parsed: the exit code and the effects. *)
Definition main (fuel : nat) (folder_path output_path : Path) : option (Z * world) :=
  match gather_tree lower fs fuel folder_path with
  | None => None
  | Some (Raise (ValueError msg), log) =>
      Some (1%Z, mkWorld (log ++ [(ERROR, Invalid_input msg)]) [] [])
  | Some (Raise (FsError e), log) =>
      if isinstance e OSError
      then Some (1%Z, mkWorld (log ++ [(ERROR, OS_error e)]) [] [])
      else Some (1%Z, mkWorld (log ++ [(ERROR, Unexpected_error e)]) [] [])
  | Some (Return tree, log) =>
      match save_to_json fs tree output_path with
      | (Raise e, log') =>
          if isinstance e OSError
          then Some (1%Z, mkWorld (log ++ log' ++ [(ERROR, OS_error e)]) [] [])
          else Some (1%Z, mkWorld (log ++ log' ++ [(ERROR, Unexpected_error e)]) [] [])
      | (Return text, log') =>
          Some (0%Z, mkWorld (log ++ log' ++ [(INFO, Script_completed)])
                       [(output_path, text)]
                       [print_report folder_path output_path tree])
      end
  end.

End Main.

(** * Specification vocabulary *)

(** ** Properties of trees *)

(** Every node of the tree, the node itself first. *)
Fixpoint nodes (n : Node) : list Node :=
  n :: match n with
       | FileNode _ _ => []
       | DirectoryNode _ _ children => flat_map nodes children
       end.

Definition file_count (n : Node) : nat :=
  length (filter (λ m, is_DirectoryNode m = false) (nodes n)).

Definition directory_count (n : Node) : nat :=
  length (filter (λ m, is_DirectoryNode m = true) (nodes n)).

(** Component-wise sum of the counts of a list of children. *)
Definition sum_counts (counts : list (nat * nat)) : nat * nat :=
  (sum_list (map fst counts), sum_list (map snd counts)).

(** The tag of a node is the one of its class. *)
Definition well_tagged (n : Node) : bool :=
  match n with
  | FileNode _ ty => bool_decide (ty = "file")
  | DirectoryNode _ ty _ => bool_decide (ty = "folder")
  end.

Definition all_well_tagged (n : Node) : bool := forallb well_tagged (nodes n).

(** A list is in non-decreasing order of the keys of its elements. *)
Fixpoint is_sorted_by {A : Type} (key : A → string) (l : list A) : bool :=
  match l with
  | [] => true
  | a :: l' =>
      match l' with
      | [] => true
      | b :: _ => String.leb (key a) (key b) && is_sorted_by key l'
      end
  end.

(** The children of a node are in order of their lowercased names. *)
Definition children_sorted (lower : string → string) (n : Node) : bool :=
  match n with
  | FileNode _ _ => true
  | DirectoryNode _ _ children => is_sorted_by (λ c, lower (node_name c)) children
  end.

(** ... and so are those of every directory below it. *)
Definition all_children_sorted (lower : string → string) (n : Node) : bool :=
  forallb (children_sorted lower) (nodes n).

(** Resolution keeps the base name of the path it resolves. *)
Definition resolve_preserves_name (fs : FS) : Prop :=
  ∀ p t, fs_resolve fs p = Return t → name t = name p.

(** The finite set [U] of paths holds all the walk can reach from its
    members: the canonical path of each, and the entries of each that is
    not a link (the walk lists no link, it lists the target). *)
Definition closed_at (fs : FS) (U : gset Path) (p : Path) : bool :=
  match fs_resolve fs p with
  | Return t => bool_decide (t ∈ U)
  | Raise _ => true
  end
  && match fs_is_symlink fs p, fs_iterdir fs p with
     | Return false, Return listing => forallb (λ e, bool_decide (e ∈ U)) listing
     | _, _ => true
     end.

Definition walk_closed (fs : FS) (U : gset Path) : bool :=
  forallb (closed_at fs U) (elements U).

(** ** The recursive calls of a scan *)

Section Calls.
Variable fs : FS.

(** [subscan path visited path' visited']: the scan of [path] with
    [visited] may call the scan of [path'] with [visited'].  There are two
    such calls in [scan_directory]: on the target of a link, and on the
    entries of a directory. *)
Inductive subscan : Path → gset Path → Path → gset Path → Prop :=
| subscan_target path visited target :
    fs_is_symlink fs path = Return true →
    fs_resolve fs path = Return target →
    target ∉ visited →
    subscan path visited target ({[target]} ∪ visited)
| subscan_entry path visited resolved_path listing entry :
    fs_is_symlink fs path = Return false →
    fs_resolve fs path = Return resolved_path →
    resolved_path ∉ visited →
    fs_is_file fs path = Return false →
    fs_is_dir fs path = Return true →
    fs_iterdir fs path = Return listing →
    entry ∈ listing →
    subscan path visited entry ({[resolved_path]} ∪ visited).

(** A scan reached from another through any number of calls. *)
Inductive descends : Path → gset Path → Path → gset Path → Prop :=
| descends_refl path visited : descends path visited path visited
| descends_step path visited path1 visited1 path2 visited2 :
    subscan path visited path1 visited1 →
    descends path1 visited1 path2 visited2 →
    descends path visited path2 visited2.

End Calls.

(** ** What a directory scan keeps of an entry *)

Section Entries.
Variable scan : Path → gset Path → option scan_result.
Variable visited : gset Path.

(** The scan of the entry ends, and if it raises, it raises what the loop
    catches. *)
Definition entry_handled (entry : Path) : bool :=
  match scan entry visited with
  | Some (Return _, _, _) => true
  | Some (Raise e, _, _) => isinstance e OSError
  | None => false
  end.

Definition kept_child (entry : Path) : option Node :=
  match scan entry visited with
  | Some (Return child, _, _) => Some child
  | _ => None
  end.

Definition entry_log (entry : Path) : list log_record :=
  match scan entry visited with
  | Some (Return _, _, l) => l
  | Some (Raise e, _, l) => l ++ [(WARNING, Could_not_access entry e)]
  | None => []
  end.

End Entries.

(** ** Properties of documents *)

Definition dict_keys (v : pyval) : list string :=
  match v with
  | PDict items => map fst items
  | _ => []
  end.

(** A text between quotes, and lines joined by line feeds. *)
Definition quoted (s : string) : string :=
  String dquote (s +:+ String dquote EmptyString).

Definition unlines (ls : list string) : string :=
  String.concat (String newline EmptyString) ls.

(** No character of the text is one that [escape] replaces. *)
Definition unescaped (c : ascii) : bool :=
  negb (bool_decide (c = backslash)) && negb (bool_decide (c = dquote))
  && negb (bool_decide (nat_of_ascii c < 32)).

Fixpoint string_forall (P : ascii → bool) (s : string) : bool :=
  match s with
  | EmptyString => true
  | String c s' => P c && string_forall P s'
  end.

(** A byte of a character outside ASCII in UTF-8. *)
Definition non_ascii (c : ascii) : bool := bool_decide (128 ≤ nat_of_ascii c)%nat.

(** The layout of the output format, written from its description and not
    from the encoder: an object per node, keys [name], [type] and, for a
    folder, [children]; every nesting level indented by two more spaces. *)
Fixpoint layout_node (level : nat) (n : Node) : string :=
  let field (k : string) (v : string) : string :=
    encode_basestring k +:+ ": " +:+ v in
  let line (lv : nat) : string := String newline (spaces (2 * lv)) in
  match n with
  | FileNode nm ty =>
      "{" +:+ line (S level) +:+ field "name" (encode_basestring nm)
      +:+ "," +:+ line (S level) +:+ field "type" (encode_basestring ty)
      +:+ line level +:+ "}"
  | DirectoryNode nm ty children =>
      "{" +:+ line (S level) +:+ field "name" (encode_basestring nm)
      +:+ "," +:+ line (S level) +:+ field "type" (encode_basestring ty)
      +:+ "," +:+ line (S level)
      +:+ field "children"
            match children with
            | [] => "[]"
            | _ =>
                "[" +:+ line (S (S level))
                +:+ String.concat ("," +:+ line (S (S level)))
                      (map (layout_node (S (S level))) children)
                +:+ line (S level) +:+ "]"
            end
      +:+ line level +:+ "}"
  end.

Definition layout_tree (t : TreeStructure) : string :=
  "{" +:+ String newline (spaces 2) +:+ encode_basestring "root" +:+ ": "
  +:+ layout_node 1 (root t) +:+ String newline "}".

(** * Sample filesystems *)

(** [str.lower] on ASCII texts. *)
Definition lower_char (c : ascii) : ascii :=
  let n := nat_of_ascii c in
  if decide (65 ≤ n ∧ n ≤ 90)%nat then ascii_of_nat (n + 32) else c.

Fixpoint ascii_lower (s : string) : string :=
  match s with
  | EmptyString => EmptyString
  | String c s' => String (lower_char c) (ascii_lower s')
  end.

(** What a path of a sample filesystem holds. *)
Inductive inode : Type :=
| File
| Dir (entries : list string)
| LockedDir
| Link (target : Path)
| BrokenLink (e : fs_exn)
| Special
| NoAccess.

Definition disk : Type := list (Path * inode).

Fixpoint disk_lookup (d : disk) (p : Path) : option inode :=
  match d with
  | [] => None
  | (q, i) :: d' => if decide (p = q) then Some i else disk_lookup d' p
  end.

(** The inode a query that follows links sees. *)
Definition disk_follow (d : disk) (p : Path) : option inode :=
  match disk_lookup d p with
  | Some (Link t) => disk_lookup d t
  | Some (BrokenLink _) => None
  | i => i
  end.

Definition fs_of_disk (d : disk) : FS := {|
  fs_is_symlink p :=
    match disk_lookup d p with
    | Some (Link _ | BrokenLink _) => Return true
    | Some NoAccess => Raise PermissionError
    | _ => Return false
    end;
  fs_resolve p :=
    match disk_lookup d p with
    | Some (Link t) => Return t
    | Some (BrokenLink e) => Raise e
    | _ => Return p
    end;
  fs_is_file p :=
    match disk_follow d p with
    | Some File => Return true
    | Some NoAccess => Raise PermissionError
    | _ => Return false
    end;
  fs_is_dir p :=
    match disk_follow d p with
    | Some (Dir _ | LockedDir) => Return true
    | Some NoAccess => Raise PermissionError
    | _ => Return false
    end;
  fs_exists p :=
    match disk_follow d p with
    | Some NoAccess => Raise PermissionError
    | Some _ => Return true
    | None => Return false
    end;
  fs_iterdir p :=
    match disk_follow d p with
    | Some (Dir entries) => Return (map (λ e, p ++ [e]) entries)
    | Some LockedDir => Raise PermissionError
    | _ => Raise OSError
    end;
  fs_open_w _ := Return ()
|}.

(** A folder with two sibling links to one real directory outside it. *)
Definition disk_siblings : disk :=
  [ (["lib"], Dir ["first"; "second"]);
    (["lib"; "first"], Link ["real"]);
    (["lib"; "second"], Link ["real"]);
    (["real"], Dir ["f.txt"]);
    (["real"; "f.txt"], File) ].

(** A folder whose link [a] points to a file named [z], next to a file
    [b]. *)
Definition disk_renamed : disk :=
  [ (["top"], Dir ["b"; "a"]);
    (["top"; "a"], Link ["data"; "z"]);
    (["top"; "b"], File);
    (["data"], Dir ["z"]);
    (["data"; "z"], File) ].

(** A folder with a file, a directory that cannot be listed, a path that
    cannot be accessed, a broken link, a link back to the folder itself and
    a subdirectory, listed out of order. *)
Definition disk_mixed : disk :=
  [ (["home"], Dir ["sub"; "Locked"; "a.txt"; "secret"; "dangling"; "back"]);
    (["home"; "a.txt"], File);
    (["home"; "Locked"], LockedDir);
    (["home"; "secret"], NoAccess);
    (["home"; "dangling"], BrokenLink OSError);
    (["home"; "back"], Link ["home"]);
    (["home"; "sub"], Dir ["up"; "B.txt"]);
    (["home"; "sub"; "B.txt"], File);
    (["home"; "sub"; "up"], Link ["home"]) ].

(** A folder without links that change names: files and directories in
    mixed case, and a link to a file of its own name. *)
Definition disk_plain : disk :=
  [ (["top"], Dir ["b.txt"; "Zeta"; "alpha"; "same"]);
    (["top"; "b.txt"], File);
    (["top"; "Zeta"], Dir ["y"; "X"]);
    (["top"; "Zeta"; "y"], File);
    (["top"; "Zeta"; "X"], File);
    (["top"; "alpha"], Dir []);
    (["top"; "same"], Link ["store"; "same"]);
    (["store"; "same"], File) ].

(** Every link of the disk has the base name of its target. *)
Definition links_keep_names (d : disk) : bool :=
  forallb (λ entry, match entry.2 with
                    | Link t => bool_decide (name t = name entry.1)
                    | _ => true
                    end) d.

(** The paths of a disk, with the targets of its links. *)
Definition disk_paths (d : disk) : gset Path :=
  list_to_set (flat_map (λ entry, match entry.2 with
                                  | Link t => [entry.1; t]
                                  | _ => [entry.1]
                                  end) d).

(** * Facts about the order of texts *)

Lemma string_leb_refl (s : string) : String.leb s s = true.
Proof. destruct (String.leb_total s s); assumption. Qed.

Lemma string_compare_lt_trans (s1 s2 s3 : string) :
  String.compare s1 s2 = Lt → String.compare s2 s3 = Lt → String.compare s1 s3 = Lt.
Proof.
  intros H12 H23.
  exact (StrictOrder_Transitive (R := String_as_OT.lt) s1 s2 s3 H12 H23).
Qed.

Lemma string_leb_trans (s1 s2 s3 : string) :
  String.leb s1 s2 = true → String.leb s2 s3 = true → String.leb s1 s3 = true.
Proof.
  unfold String.leb. intros H12 H23.
  destruct (String.compare s1 s2) eqn:E12; try discriminate.
  - apply String.compare_eq_iff in E12. subst. assumption.
  - destruct (String.compare s2 s3) eqn:E23; try discriminate.
    + apply String.compare_eq_iff in E23. subst. rewrite E12. reflexivity.
    + rewrite (string_compare_lt_trans _ _ _ E12 E23). reflexivity.
Qed.

Lemma string_ltb_leb (s1 s2 : string) :
  String.ltb s1 s2 = true → String.leb s1 s2 = true.
Proof.
  unfold String.ltb, String.leb. destruct (String.compare s1 s2); congruence.
Qed.

Lemma string_nltb_leb (s1 s2 : string) :
  String.ltb s1 s2 = false → String.leb s2 s1 = true.
Proof.
  unfold String.ltb, String.leb. rewrite (String.compare_antisym s1 s2).
  destruct (String.compare s2 s1); simpl; congruence.
Qed.

(** * Facts about [sorted] *)

Section SortedFacts.
Context {A : Type} (key : A → string).

Lemma is_sorted_by_cons (a : A) (l : list A) :
  is_sorted_by key (a :: l) = true ↔
  is_sorted_by key l = true ∧ Forall (λ b, String.leb (key a) (key b) = true) l.
Proof.
  revert a. induction l as [|b l IH]; intros a.
  - simpl. split; [intros _; split; [reflexivity|constructor] | reflexivity].
  - change (is_sorted_by key (a :: b :: l))
      with (String.leb (key a) (key b) && is_sorted_by key (b :: l)).
    rewrite andb_true_iff. split.
    + intros [Hab Hl]. split; [assumption|]. constructor; [assumption|].
      apply IH in Hl as [_ Hb]. eapply Forall_impl; [exact Hb|].
      intros c Hc. simpl in Hc. eapply string_leb_trans; eassumption.
    + intros [Hl Hall]. split; [|assumption]. by inversion Hall.
Qed.

Lemma insert_by_elem (x y : A) (l : list A) :
  y ∈ insert_by key x l ↔ y = x ∨ y ∈ l.
Proof.
  induction l as [|z l IH]; simpl.
  - rewrite list_elem_of_singleton, elem_of_nil. tauto.
  - destruct (String.ltb (key z) (key x)).
    + rewrite !elem_of_cons, IH. tauto.
    + rewrite !elem_of_cons. tauto.
Qed.

Lemma insert_by_sorted (x : A) (l : list A) :
  is_sorted_by key l = true → is_sorted_by key (insert_by key x l) = true.
Proof.
  induction l as [|y l IH]; intros Hl; [reflexivity|].
  simpl insert_by. destruct (String.ltb (key y) (key x)) eqn:E.
  - apply is_sorted_by_cons in Hl as [Hl Hy].
    apply is_sorted_by_cons. split; [by apply IH|].
    apply Forall_forall. intros z Hz. apply insert_by_elem in Hz as [->|Hz].
    + by apply string_ltb_leb.
    + by eapply (proj1 (Forall_forall _ _) Hy).
  - apply is_sorted_by_cons. split; [assumption|].
    pose proof (string_nltb_leb _ _ E) as Hxy.
    apply is_sorted_by_cons in Hl as [_ Hy].
    constructor; [assumption|].
    eapply Forall_impl; [exact Hy|]. intros z Hz. simpl in Hz.
    eapply string_leb_trans; eassumption.
Qed.

Lemma sorted_is_sorted (l : list A) : is_sorted_by key (sorted key l) = true.
Proof.
  induction l as [|x l IH]; [reflexivity|]. simpl. by apply insert_by_sorted.
Qed.

Lemma insert_by_Permutation (x : A) (l : list A) : insert_by key x l ≡ₚ x :: l.
Proof.
  induction l as [|y l IH]; [reflexivity|]. simpl.
  destruct (String.ltb (key y) (key x)); [|reflexivity].
  rewrite IH. apply Permutation_swap.
Qed.

Lemma sorted_Permutation (l : list A) : sorted key l ≡ₚ l.
Proof.
  induction l as [|x l IH]; [reflexivity|]. simpl.
  rewrite insert_by_Permutation. by rewrite IH.
Qed.

Lemma Forall_of_sublist (P : A → Prop) (l1 l2 : list A) :
  sublist l1 l2 → Forall P l2 → Forall P l1.
Proof.
  induction 1 as [|a l1 l2 Hsub IH|a l1 l2 Hsub IH]; intros Hall.
  - constructor.
  - inversion Hall; subst. constructor; [assumption|by apply IH].
  - inversion Hall; subst. by apply IH.
Qed.

Lemma is_sorted_by_sublist (l1 l2 : list A) :
  sublist l1 l2 → is_sorted_by key l2 = true → is_sorted_by key l1 = true.
Proof.
  induction 1 as [|a l1 l2 Hsub IH|a l1 l2 Hsub IH]; intros Hs.
  - reflexivity.
  - apply is_sorted_by_cons in Hs as [Hs Ha]. apply is_sorted_by_cons.
    split; [by apply IH|]. by eapply Forall_of_sublist.
  - apply is_sorted_by_cons in Hs as [Hs _]. by apply IH.
Qed.

End SortedFacts.

(** Two lists with the same keys, position by position, are sorted
    together. *)
Lemma is_sorted_by_Forall2 {A B : Type} (kA : A → string) (kB : B → string)
    (la : list A) (lb : list B) :
  Forall2 (λ a b, kB b = kA a) la lb →
  is_sorted_by kA la = true → is_sorted_by kB lb = true.
Proof.
  induction 1 as [|a b la lb Hab Hrest IH]; intros Hs; [reflexivity|].
  apply is_sorted_by_cons in Hs as [Hs Ha]. apply is_sorted_by_cons.
  split; [by apply IH|]. rewrite Hab.
  clear IH Hs. induction Hrest as [|a' b' la lb Hab' Hrest IH]; [constructor|].
  inversion Ha; subst. constructor; [by rewrite Hab'|by apply IH].
Qed.

(** The keys of a sorted listing do not depend on the order of the
    listing: two listings of the same entries are sorted into the same
    sequence of keys. *)
Lemma sorted_keys_independent_of_order {A : Type} (key : A → string) (l1 l2 : list A) :
  l1 ≡ₚ l2 → map key (sorted key l1) = map key (sorted key l2).
Proof.
  intros Hperm.
  pose (R := λ s1 s2 : string, String.leb s1 s2 = true).
  assert (Transitive R) as HT by (intros x y z; apply string_leb_trans).
  assert (AntiSymm eq R) as HA by (intros x y; apply String.leb_antisym).
  assert (∀ l, Sorted R (map key (sorted key l))) as Hsorted.
  { intros l. pose proof (sorted_is_sorted key l) as Hs.
    induction (sorted key l) as [|a l' IH]; [constructor|].
    apply is_sorted_by_cons in Hs as [Hs Ha]. cbn [map].
    constructor; [by apply IH|].
    destruct l' as [|b l'']; constructor. by inversion Ha. }
  apply (Sorted_unique R); [apply Hsorted..|].
  change (key <$> sorted key l1 ≡ₚ key <$> sorted key l2).
  by rewrite !sorted_Permutation, Hperm.
Qed.

(** * Facts about the walk *)

Lemma catches_OSError (e : fs_exn) :
  catches [OSError; PermissionError] e = isinstance e OSError.
Proof. by destruct e. Qed.

Lemma catches_resolve (e : fs_exn) : catches [OSError; RuntimeError] e = true.
Proof. by destruct e. Qed.

#[local] Arguments catches : simpl never.
#[local] Arguments isinstance : simpl never.

Section EntriesFacts.
Variable scan : Path → gset Path → option scan_result.
Variable visited : gset Path.

(** When every entry is handled, the loop returns the children kept, in the
    order of the entries, and the records of the entries, in that order. *)
Lemma scan_entries_handled (entries : list Path) :
  forallb (entry_handled scan visited) entries = true →
  ∀ children log,
    scan_entries scan entries visited children log
    = Some (Return (children ++ omap (kept_child scan visited) entries),
            log ++ concat (map (entry_log scan visited) entries)).
Proof.
  induction entries as [|entry rest IH]; intros Hall children log.
  - simpl. by rewrite !app_nil_r.
  - simpl in Hall. apply andb_true_iff in Hall as [Hentry Hrest].
    simpl. unfold entry_handled, kept_child, entry_log in *.
    destruct (scan entry visited) as [[[[child|e] v'] l]|]; [| |done].
    + rewrite (IH Hrest). by rewrite <- !app_assoc.
    + rewrite catches_OSError, Hentry, (IH Hrest). by rewrite <- !app_assoc.
Qed.

(** When the loop returns, its children are those of a sublist of the
    entries, one child per entry, in order. *)
Lemma scan_entries_Return_inv (entries : list Path) :
  ∀ children log children' log',
    scan_entries scan entries visited children log = Some (Return children', log') →
    ∃ kept new,
      children' = children ++ new ∧ sublist kept entries ∧
      Forall2 (λ e c, ∃ v' l, scan e visited = Some (Return c, v', l)) kept new.
Proof.
  induction entries as [|entry rest IH]; intros children log children' log' Hs.
  - simpl in Hs. simplify_eq. exists [], []. rewrite app_nil_r.
    split; [done|]. split; constructor.
  - simpl in Hs.
    destruct (scan entry visited) as [[[[child|e] v'] l]|] eqn:Escan; [| |done].
    + apply IH in Hs as (kept & new & -> & Hsub & Hall).
      exists (entry :: kept), (child :: new). rewrite <- app_assoc.
      split; [done|]. split; [by constructor|].
      constructor; [by eauto|done].
    + destruct (catches _ e); [|done].
      apply IH in Hs as (kept & new & -> & Hsub & Hall).
      exists kept, new. split; [done|]. split; [by constructor|done].
Qed.

(** The loop ends when the scan of each entry does. *)
Lemma scan_entries_is_Some (entries : list Path) :
  (∀ e, e ∈ entries → is_Some (scan e visited)) →
  ∀ children log, is_Some (scan_entries scan entries visited children log).
Proof.
  induction entries as [|entry rest IH]; intros Hscan children log.
  - by eexists.
  - simpl. destruct (Hscan entry) as [[[[child|e] v'] l] ->]; [by left| |].
    + apply IH. intros e He. apply Hscan. by right.
    + destruct (catches _ e); [|by eexists].
      apply IH. intros e' He. apply Hscan. by right.
Qed.

End EntriesFacts.

(** The loop gives the same result with a scan that extends the one it was
    run with. *)
Lemma scan_entries_mono (scan1 scan2 : Path → gset Path → option scan_result)
    (visited : gset Path) (entries : list Path) :
  (∀ e r, scan1 e visited = Some r → scan2 e visited = Some r) →
  ∀ children log r,
    scan_entries scan1 entries visited children log = Some r →
    scan_entries scan2 entries visited children log = Some r.
Proof.
  intros Hext. induction entries as [|entry rest IH]; intros children log r Hs.
  - done.
  - simpl in *. destruct (scan1 entry visited) as [[[[child|e] v'] l]|] eqn:E1; [| |done].
    + rewrite (Hext _ _ E1). by apply IH.
    + rewrite (Hext _ _ E1). destruct (catches _ e); [by apply IH|done].
Qed.

Section WalkerFacts.
Variable lower : string → string.
Variable fs : FS.

#[local] Abbreviation scan := (scan_directory lower fs).
#[local] Abbreviation key := (entry_key lower).

(** An induction principle over the nodes the walk returns: a property of
    a path and its node holds of every result as soon as it holds of the
    placeholders, passes from the target of a link to the link, and passes
    from the children kept to the directory. *)
Lemma scan_directory_node_ind (Q : Path → Node → Prop) :
  (∀ p, Q p (FileNode (name p) "file")) →
  (∀ p t, fs_resolve fs p = Return t → Q p (FileNode (name t) "file")) →
  (∀ p t n,
     fs_is_symlink fs p = Return true → fs_resolve fs p = Return t →
     Q t n → Q p n) →
  (∀ p rp listing kept children,
     fs_is_symlink fs p = Return false → fs_resolve fs p = Return rp →
     fs_iterdir fs p = Return listing →
     sublist kept (sorted key listing) → Forall2 Q kept children →
     Q p (DirectoryNode (name rp) "folder" children)) →
  ∀ fuel p v n v' l, scan fuel p v = Some (Return n, v', l) → Q p n.
Proof.
  intros Hown Htarget Hlink Hdir.
  induction fuel as [|fuel IH]; intros p v n v' l Hs; [done|].
  cbn [scan_directory] in Hs.
  unfold scan_body, except_access, except_resolve, except_listing in Hs.
  destruct (fs_is_symlink fs p) as [[|]|e] eqn:Esym.
  - destruct (fs_resolve fs p) as [t|e] eqn:Eres.
    + destruct (decide (t ∈ v)).
      * simplify_eq. by apply Htarget.
      * destruct (scan fuel t _) as [[[[n'|e'] v''] l']|] eqn:Erec.
        -- simplify_eq. eapply Hlink; [done|done|]. by eapply IH.
        -- rewrite catches_resolve in Hs. simplify_eq. apply Hown.
        -- done.
    + rewrite catches_resolve in Hs. simplify_eq. apply Hown.
  - destruct (fs_resolve fs p) as [rp|e] eqn:Eres.
    + destruct (decide (rp ∈ v)).
      * simplify_eq. by apply Htarget.
      * destruct (fs_is_file fs p) as [[|]|e] eqn:Efile.
        -- simplify_eq. by apply Htarget.
        -- destruct (fs_is_dir fs p) as [[|]|e] eqn:Edir.
           ++ destruct (fs_iterdir fs p) as [listing|e] eqn:Elist.
              ** destruct (scan_entries _ _ _ _ _) as [[[children|e] log]|] eqn:Eloop.
                 --- simplify_eq.
                     apply scan_entries_Return_inv in Eloop
                       as (kept & new & -> & Hsub & Hall).
                     eapply Hdir; [done..|].
                     eapply Forall2_impl; [exact Hall|].
                     intros e c (v'' & l'' & Hc). by eapply IH.
                 --- destruct (catches _ e); destruct (catches _ e); done.
                 --- done.
              ** destruct (catches _ e); destruct (catches _ e); done.
           ++ simplify_eq. by apply Htarget.
           ++ destruct (catches _ e); done.
        -- destruct (catches _ e); done.
    + destruct (catches _ e); done.
  - destruct (catches _ e); done.
Qed.

(** [subscan] covers the calls: the body gives the same result with two
    functions for the recursive calls that agree on the subscans. *)
Lemma scan_body_subscan (rec1 rec2 : Path → gset Path → option scan_result) p v :
  (∀ p' v', subscan fs p v p' v' → rec1 p' v' = rec2 p' v') →
  scan_body lower fs rec1 p v = scan_body lower fs rec2 p v.
Proof.
  intros Hagree. unfold scan_body.
  destruct (fs_is_symlink fs p) as [[|]|e] eqn:Esym; [| |done].
  - destruct (fs_resolve fs p) as [t|e] eqn:Eres; [|done].
    destruct (decide (t ∈ v)); [done|].
    by rewrite (Hagree t _ (subscan_target fs p v t Esym Eres ltac:(done))).
  - destruct (fs_resolve fs p) as [rp|e] eqn:Eres; [|done].
    destruct (decide (rp ∈ v)); [done|].
    destruct (fs_is_file fs p) as [[|]|e] eqn:Efile; [done| |done].
    destruct (fs_is_dir fs p) as [[|]|e] eqn:Edir; [|done..].
    destruct (fs_iterdir fs p) as [listing|e] eqn:Elist; [|done].
    cbv zeta.
    assert (∀ entries children log,
              (∀ e, e ∈ entries → e ∈ listing) →
              scan_entries rec1 entries ({[rp]} ∪ v) children log
              = scan_entries rec2 entries ({[rp]} ∪ v) children log) as Hloop.
    { induction entries as [|entry rest IH]; intros children log Hin; [done|].
      cbn [scan_entries].
      rewrite (Hagree entry _ (subscan_entry fs p v rp listing entry Esym Eres
                                 ltac:(done) Efile Edir Elist
                                 (Hin entry ltac:(by left)))).
      destruct (rec2 entry _) as [[[[child|e] v'] l]|]; [| |done].
      - apply IH. intros e He. apply Hin. by right.
      - destruct (catches _ e); [|done].
        apply IH. intros e' He. apply Hin. by right. }
    rewrite Hloop; [done|].
    intros e He. by rewrite <- (sorted_Permutation key listing).
Qed.

(** Down the calls, [visited] only grows. *)
Lemma descends_visited p v p' v' : descends fs p v p' v' → v ⊆ v'.
Proof.
  induction 1 as [|p v p1 v1 p2 v2 Hsub _ IH]; [done|].
  etrans; [|exact IH]. destruct Hsub; apply union_subseteq_r.
Qed.

(** The scan of a link never raises: the handler of the link branch catches
    whatever the resolution or the scan of the target raises. *)
Lemma scan_symlink_returns fuel p v r v' l :
  fs_is_symlink fs p = Return true →
  scan fuel p v = Some (r, v', l) → ∃ n, r = Return n.
Proof.
  intros Hsym Hs. destruct fuel as [|fuel]; [done|].
  cbn [scan_directory] in Hs. unfold scan_body in Hs. rewrite Hsym in Hs.
  unfold except_access, except_resolve in Hs.
  destruct (fs_resolve fs p) as [t|e].
  - destruct (decide (t ∈ v)); [simplify_eq; by eexists|].
    destruct (scan fuel t _) as [[[[n'|e'] v''] l']|]; [| |done].
    + simplify_eq. by eexists.
    + rewrite catches_resolve in Hs. simplify_eq. by eexists.
  - rewrite catches_resolve in Hs. simplify_eq. by eexists.
Qed.

Lemma walk_closed_elem U p :
  walk_closed fs U = true → p ∈ U →
  (∀ t, fs_resolve fs p = Return t → t ∈ U) ∧
  (∀ listing e,
     fs_is_symlink fs p = Return false → fs_iterdir fs p = Return listing →
     e ∈ listing → e ∈ U).
Proof.
  unfold walk_closed. rewrite forallb_forall. intros Hall Hp.
  specialize (Hall p). rewrite <- list_elem_of_In, elem_of_elements in Hall.
  specialize (Hall Hp). unfold closed_at in Hall.
  apply andb_true_iff in Hall as [Hres Hlist]. split.
  - intros t Ht. rewrite Ht in Hres. by apply bool_decide_eq_true in Hres.
  - intros listing e Hsym Hl He. rewrite Hsym, Hl in Hlist.
    rewrite forallb_forall in Hlist. specialize (Hlist e).
    rewrite <- list_elem_of_In in Hlist. apply (bool_decide_eq_true _). by apply Hlist.
Qed.

Lemma size_difference_insert (U v : gset Path) (t : Path) :
  t ∈ U → t ∉ v → size (U ∖ ({[t]} ∪ v)) < size (U ∖ v).
Proof.
  intros HU Hv. apply subset_size. split.
  - intros x. rewrite !elem_of_difference, elem_of_union. tauto.
  - intros Hsub. specialize (Hsub t).
    rewrite !elem_of_difference, elem_of_union, elem_of_singleton in Hsub. tauto.
Qed.

(** The walk ends: from a path of a closed finite set [U], with fuel above
    the number of members of [U] not yet visited. *)
Lemma scan_directory_terminates U :
  walk_closed fs U = true →
  ∀ fuel p v, p ∈ U → size (U ∖ v) < fuel → is_Some (scan fuel p v).
Proof.
  intros HU. induction fuel as [|fuel IH]; intros p v Hp Hfuel; [lia|].
  destruct (walk_closed_elem U p HU Hp) as [Hres Hlist].
  cbn [scan_directory]. unfold scan_body, except_access, except_resolve, except_listing.
  destruct (fs_is_symlink fs p) as [[|]|e] eqn:Esym.
  - destruct (fs_resolve fs p) as [t|e] eqn:Eres.
    + destruct (decide (t ∈ v)); [by eexists|].
      pose proof (size_difference_insert U v t (Hres t eq_refl) ltac:(done)).
      destruct (IH t ({[t]} ∪ v)) as [[[[n'|e'] v''] l'] ->];
        [by apply Hres|lia|by eexists|].
      rewrite catches_resolve. by eexists.
    + rewrite catches_resolve. by eexists.
  - destruct (fs_resolve fs p) as [rp|e] eqn:Eres.
    + destruct (decide (rp ∈ v)); [by eexists|].
      pose proof (size_difference_insert U v rp (Hres rp eq_refl) ltac:(done)).
      destruct (fs_is_file fs p) as [[|]|e]; [by eexists| |].
      * destruct (fs_is_dir fs p) as [[|]|e]; [|by eexists|].
        -- destruct (fs_iterdir fs p) as [listing|e] eqn:Elist.
           ++ destruct (scan_entries_is_Some (scan fuel) ({[rp]} ∪ v)
                          (sorted key listing)) with (children := @nil Node)
                          (log := @nil log_record)
                as [[[children|e] log] ->].
              ** intros e He. apply IH; [|lia].
                 eapply Hlist; [done|done|].
                 by rewrite <- (sorted_Permutation key listing).
              ** by eexists.
              ** destruct (catches _ e); destruct (catches _ e); by eexists.
           ++ destruct (catches _ e); destruct (catches _ e); by eexists.
        -- destruct (catches _ e); by eexists.
      * destruct (catches _ e); by eexists.
    + destruct (catches _ e); by eexists.
  - destruct (catches _ e); by eexists.
Qed.

(** Fuel only bounds the depth: a result obtained with some fuel is the
    result with any more. *)
Lemma scan_directory_fuel_S fuel :
  ∀ p v r, scan fuel p v = Some r → scan (S fuel) p v = Some r.
Proof.
  induction fuel as [|fuel IH]; intros p v r Hs; [done|].
  change (scan_body lower fs (scan fuel) p v = Some r) in Hs.
  change (scan_body lower fs (scan (S fuel)) p v = Some r).
  unfold scan_body in *.
  destruct (fs_is_symlink fs p) as [[|]|e]; [| |done].
  - destruct (fs_resolve fs p) as [t|e]; [|done].
    destruct (decide (t ∈ v)); [done|].
    destruct (scan fuel t _) as [r'|] eqn:Erec; [|done].
    by rewrite (IH _ _ _ Erec).
  - destruct (fs_resolve fs p) as [rp|e]; [|done].
    destruct (decide (rp ∈ v)); [done|].
    destruct (fs_is_file fs p) as [[|]|e]; [done| |done].
    destruct (fs_is_dir fs p) as [[|]|e]; [|done..].
    destruct (fs_iterdir fs p) as [listing|e]; [|done].
    destruct (scan_entries (scan fuel) _ _ _ _) as [r'|] eqn:Eloop; [|done].
    by rewrite (scan_entries_mono (scan fuel) (scan (S fuel)) _ _
                (λ e r0, IH e _ r0) _ _ _ Eloop).
Qed.

Lemma scan_directory_fuel_mono (fuel fuel' : nat) p v r :
  (fuel ≤ fuel')%nat → scan fuel p v = Some r → scan fuel' p v = Some r.
Proof.
  induction 1 as [|fuel' _ IH]; [done|].
  intros Hs. by apply scan_directory_fuel_S, IH.
Qed.

End WalkerFacts.

(** * The claims about the walk *)

Section WalkerClaims.
Variable lower : string → string.
Variable fs : FS.

#[local] Abbreviation scan := (scan_directory lower fs).
#[local] Abbreviation key := (entry_key lower).

(** A link whose target scans as itself is never expanded: the link branch
    puts the target in [visited] before it scans the target, and the scan
    of the target finds it there. *)
Lemma symlink_target_not_expanded fuel path visited target :
  fs_is_symlink fs path = Return true →
  fs_resolve fs path = Return target →
  target ∉ visited →
  fs_is_symlink fs target = Return false →
  fs_resolve fs target = Return target →
  scan (S (S fuel)) path visited
  = Some (Return (FileNode (name target) "file"), {[target]} ∪ visited,
          [(WARNING, Cycle_detected target)]).
Proof.
  intros Hsym Hres Hnew Htsym Htres.
  cbn [scan_directory]. unfold scan_body. rewrite Hsym, Hres, Htsym, Htres.
  rewrite (decide_False _ _ Hnew).
  rewrite decide_True by (apply elem_of_union_l; by apply elem_of_singleton).
  reflexivity.
Qed.


(** C6. A symbolic link that resolves to a member of [visited] is scanned
    into a cycle warning and a [FileNode] named after the target, with no
    recursive call (one unit of fuel is enough).  So it is for a link
    anywhere below a directory, reached through any number of recursive
    calls from one of its entries, that resolves to the canonical path of
    that directory.  And the walk as a whole
    ends: from a path of a finite set closed under resolution and listing,
    fuel above the number of paths not yet visited gives a result, the same
    with any more fuel, which for a link is never an exception. *)
Theorem symlink_cycle_is_terminal :
  (∀ fuel path visited target,
     fs_is_symlink fs path = Return true →
     fs_resolve fs path = Return target →
     target ∈ visited →
     scan (S fuel) path visited
     = Some (Return (FileNode (name target) "file"), visited,
             [(WARNING, Symlink_cycle_detected path)])
     ∧ scan 1 path visited = scan (S fuel) path visited)
  ∧
  (∀ fuel dir visited entry visited1 link visited2 target,
     subscan fs dir visited entry visited1 →
     fs_is_symlink fs dir = Return false →
     fs_resolve fs dir = Return target →
     descends fs entry visited1 link visited2 →
     fs_is_symlink fs link = Return true →
     fs_resolve fs link = Return target →
     scan (S fuel) link visited2
     = Some (Return (FileNode (name target) "file"), visited2,
             [(WARNING, Symlink_cycle_detected link)]))
  ∧
  (∀ U fuel path visited,
     walk_closed fs U = true → path ∈ U → size (U ∖ visited) < fuel →
     ∃ r visited' log,
       scan fuel path visited = Some (r, visited', log)
       ∧ (∀ fuel' : nat, (fuel ≤ fuel')%nat →
            scan fuel' path visited = Some (r, visited', log))
       ∧ (fs_is_symlink fs path = Return true → ∃ n, r = Return n)).
Proof.
  assert (∀ fuel path visited target,
            fs_is_symlink fs path = Return true →
            fs_resolve fs path = Return target →
            target ∈ visited →
            scan (S fuel) path visited
            = Some (Return (FileNode (name target) "file"), visited,
                    [(WARNING, Symlink_cycle_detected path)])) as Hcycle.
  { intros fuel path visited target Hsym Hres Hin.
    cbn [scan_directory]. unfold scan_body. rewrite Hsym, Hres.
    by rewrite (decide_True _ _ Hin). }
  split; [|split].
  - intros fuel path visited target Hsym Hres Hin.
    by rewrite !(Hcycle _ path visited target).
  - intros fuel dir visited entry visited1 link visited2 target
      Hsub Hdsym Hdres Hdesc Hsym Hres.
    apply Hcycle; [done..|].
    apply (descends_visited fs _ _ _ _ Hdesc).
    inversion Hsub as [|? ? rp ? ? ? Hrp]; subst; [congruence|].
    rewrite Hdres in Hrp. injection Hrp as <-.
    apply elem_of_union_l. by apply elem_of_singleton.
  - intros U fuel path visited HU Hp Hfuel.
    destruct (scan_directory_terminates lower fs U HU fuel path visited Hp Hfuel)
      as [[[r v'] l] Hs].
    exists r, v', l. split; [done|]. split.
    + intros fuel' Hle. by eapply scan_directory_fuel_mono.
    + intros Hsym. by eapply scan_symlink_returns.
Qed.


(** C5. [gather_tree] raises a [ValueError] exactly when the path does not
    exist, or exists and is not a directory.  It then raises before any
    scan (with no fuel at all, and nothing logged), and [main] logs the
    error, writes no file, prints no report and returns 1. *)
Theorem invalid_root_path fuel folder_path :
  ((∃ msg log, gather_tree lower fs fuel folder_path = Some (Raise (ValueError msg), log))
   ↔ (fs_exists fs folder_path = Return false
      ∨ (fs_exists fs folder_path = Return true
         ∧ fs_is_dir fs folder_path = Return false)))
  ∧ (∀ msg log output_path,
       gather_tree lower fs fuel folder_path = Some (Raise (ValueError msg), log) →
       log = []
       ∧ gather_tree lower fs 0 folder_path = Some (Raise (ValueError msg), [])
       ∧ main lower fs fuel folder_path output_path
         = Some (1%Z, mkWorld [(ERROR, Invalid_input msg)] [] [])).
Proof.
  split.
  - unfold gather_tree. split.
    + intros (msg & log & Hg).
      destruct (fs_exists fs folder_path) as [[|]|e]; [|by left|done].
      destruct (fs_is_dir fs folder_path) as [[|]|e]; [|by right|done].
      destruct (scan fuel folder_path ∅) as [[[[node|e] v'] l]|]; [|done..].
      by destruct (is_DirectoryNode node).
    + intros [->|[-> ->]]; by eexists _, _.
  - intros msg log output_path Hg. unfold main. rewrite Hg.
    revert Hg. unfold gather_tree.
    destruct (fs_exists fs folder_path) as [[|]|e]; [| |done].
    + destruct (fs_is_dir fs folder_path) as [[|]|e]; [| |done].
      * destruct (scan fuel folder_path ∅) as [[[[node|e] v'] l]|]; [|done..].
        by destruct (is_DirectoryNode node).
      * intros Hg. by simplify_eq.
    + intros Hg. by simplify_eq.
Qed.

(** C4. In the scan of a directory, when each entry either returns or
    raises an [OSError], the scan returns a [DirectoryNode] whose children
    are the nodes of the entries that returned, in the order of the sorted
    entries; an entry that raised is left out and leaves a warning in the
    log after its own records.  When the listing itself raises, the scan
    raises the same exception (after two error records if it is an
    [OSError]).  And whatever the other entries do, the loop passes an entry
    that raises an [OSError]: it logs the warning and goes on with the rest
    and the same children. *)
Theorem directory_scan_skips_failed_entries fuel path visited resolved_path :
  fs_is_symlink fs path = Return false →
  fs_resolve fs path = Return resolved_path →
  resolved_path ∉ visited →
  fs_is_file fs path = Return false →
  fs_is_dir fs path = Return true →
  let visited1 := {[resolved_path]} ∪ visited in
  (∀ listing,
     fs_iterdir fs path = Return listing →
     let entries := sorted key listing in
     forallb (entry_handled (scan fuel) visited1) entries = true →
     scan (S fuel) path visited
     = Some (Return (DirectoryNode (name resolved_path) "folder"
                       (omap (kept_child (scan fuel) visited1) entries)),
             visited1 ∖ {[resolved_path]},
             concat (map (entry_log (scan fuel) visited1) entries))
     ∧ (∀ entry e v' l,
          entry ∈ entries → scan fuel entry visited1 = Some (Raise e, v', l) →
          kept_child (scan fuel) visited1 entry = None
          ∧ (WARNING, Could_not_access entry e)
            ∈ concat (map (entry_log (scan fuel) visited1) entries)))
  ∧ (∀ e,
       fs_iterdir fs path = Raise e →
       ∃ log,
         scan (S fuel) path visited = Some (Raise e, visited1, log)
         ∧ (isinstance e OSError = true →
            log = [(ERROR, Could_not_read_directory path e);
                   (ERROR, Error_accessing path e)]))
  ∧ (∀ entry rest children log e v' l,
       scan fuel entry visited1 = Some (Raise e, v', l) →
       isinstance e OSError = true →
       scan_entries (scan fuel) (entry :: rest) visited1 children log
       = scan_entries (scan fuel) rest visited1 children
           (log ++ l ++ [(WARNING, Could_not_access entry e)])).
Proof.
  intros Hsym Hres Hnew Hfile Hdir visited1. split; [|split]; cycle 2.
  { intros entry rest children log e v' l Hraise Hos.
    cbn [scan_entries]. by rewrite Hraise, catches_OSError, Hos. }
  - intros listing Hlist entries Hall. split.
    + cbn [scan_directory]. unfold scan_body. rewrite Hsym, Hres, Hfile, Hdir, Hlist.
      rewrite (decide_False _ _ Hnew). fold visited1. fold entries.
      by rewrite (scan_entries_handled _ _ entries Hall).
    + intros entry e v' l Hentry Hraise. unfold kept_child. rewrite Hraise.
      split; [done|].
      apply list_elem_of_In, in_concat.
      exists (entry_log (scan fuel) visited1 entry). split.
      * apply in_map. by apply list_elem_of_In.
      * unfold entry_log. rewrite Hraise. apply in_or_app. right. by left.
  - intros e Hlist. cbn [scan_directory]. unfold scan_body.
    rewrite Hsym, Hres, Hfile, Hdir, Hlist. rewrite (decide_False _ _ Hnew).
    fold visited1. unfold except_listing, except_access.
    rewrite !catches_OSError. destruct (isinstance e OSError) eqn:Eos.
    + rewrite catches_OSError, Eos. eexists. split; [reflexivity|].
      intros _. reflexivity.
    + rewrite catches_OSError, Eos. eexists. split; [reflexivity|]. intros [=].
Qed.

End WalkerClaims.

(** * Invariants of the trees built *)

Lemma forallb_flat_map {A B : Type} (P : B → bool) (f : A → list B) (l : list A) :
  forallb P (flat_map f l) = forallb (λ x, forallb P (f x)) l.
Proof.
  induction l as [|x l IH]; [reflexivity|].
  simpl. by rewrite forallb_app, IH.
Qed.

Lemma forallb_nodes_directory (P : Node → bool) nm ty children :
  forallb P (nodes (DirectoryNode nm ty children))
  = P (DirectoryNode nm ty children) && forallb (λ c, forallb P (nodes c)) children.
Proof. simpl. by rewrite forallb_flat_map. Qed.

Lemma forallb_Forall2_r {A B : Type} (Q : A → B → Prop) (P : B → bool) la lb :
  Forall2 Q la lb → (∀ a b, Q a b → P b = true) → forallb P lb = true.
Proof.
  induction 1 as [|a b la lb Hab _ IH]; intros HQ; [reflexivity|].
  simpl. rewrite (HQ a b Hab). by apply IH.
Qed.

Section TreeInvariants.
Variable lower : string → string.
Variable fs : FS.

#[local] Abbreviation scan := (scan_directory lower fs).
#[local] Abbreviation key := (entry_key lower).

(** Every node the walk builds carries the tag of its class. *)
Lemma scan_directory_well_tagged fuel p v n v' l :
  scan fuel p v = Some (Return n, v', l) → all_well_tagged n = true.
Proof.
  revert fuel p v n v' l.
  apply (scan_directory_node_ind lower fs (λ _ n, all_well_tagged n = true)).
  - done.
  - done.
  - done.
  - intros p rp listing kept children _ _ _ _ Hall.
    unfold all_well_tagged. rewrite forallb_nodes_directory. simpl.
    eapply forallb_Forall2_r; [exact Hall|done].
Qed.

Lemma gather_tree_well_tagged fuel p tree log :
  gather_tree lower fs fuel p = Some (Return tree, log) →
  all_well_tagged (root tree) = true.
Proof.
  unfold gather_tree. intros Hg.
  destruct (fs_exists fs p) as [[|]|e]; [|done..].
  destruct (fs_is_dir fs p) as [[|]|e]; [|done..].
  destruct (scan fuel p ∅) as [[[[node|e] v'] l]|] eqn:Escan; [|done..].
  apply scan_directory_well_tagged in Escan.
  destruct (is_DirectoryNode node); simplify_eq; simpl; [done|].
  unfold all_well_tagged in *. rewrite forallb_nodes_directory. simpl.
  by rewrite Escan.
Qed.

(** The children of a directory are the nodes of entries taken in the
    order of the sorted listing, one child per entry kept. *)
Lemma directory_children_in_entry_order fuel p v nm ty children v' l :
  fs_is_symlink fs p = Return false →
  scan (S fuel) p v = Some (Return (DirectoryNode nm ty children), v', l) →
  ∃ rp listing kept,
    fs_resolve fs p = Return rp ∧ fs_iterdir fs p = Return listing
    ∧ sublist kept (sorted key listing) ∧ is_sorted_by key kept = true
    ∧ Forall2 (λ e c, ∃ v'' l'', scan fuel e ({[rp]} ∪ v) = Some (Return c, v'', l''))
        kept children.
Proof.
  intros Hsym Hs. cbn [scan_directory] in Hs.
  unfold scan_body, except_access, except_listing in Hs. rewrite Hsym in Hs.
  destruct (fs_resolve fs p) as [rp|e]; [|by destruct (catches _ e)].
  destruct (decide (rp ∈ v)); [done|].
  destruct (fs_is_file fs p) as [[|]|e]; [done| |by destruct (catches _ e)].
  destruct (fs_is_dir fs p) as [[|]|e]; [|done|by destruct (catches _ e)].
  destruct (fs_iterdir fs p) as [listing|e];
    [|by destruct (catches _ e); destruct (catches _ e)].
  destruct (scan_entries _ _ _ _ _) as [[[cs|e] log]|] eqn:Eloop;
    [|by destruct (catches _ e); destruct (catches _ e)|done].
  simplify_eq.
  apply scan_entries_Return_inv in Eloop as (kept & new & -> & Hsub & Hall).
  exists rp, listing, kept. do 3 (split; [done|]). split; [|done].
  eapply is_sorted_by_sublist; [exact Hsub|]. apply sorted_is_sorted.
Qed.

Section NamesPreserved.
Hypothesis Hname : resolve_preserves_name fs.

(** When resolution keeps base names, a node is named as the path it was
    scanned from, and the children of every directory are in order. *)
Lemma scan_directory_sorted fuel p v n v' l :
  scan fuel p v = Some (Return n, v', l) →
  node_name n = name p ∧ all_children_sorted lower n = true.
Proof using Hname.
  revert fuel p v n v' l.
  apply (scan_directory_node_ind lower fs
           (λ p n, node_name n = name p ∧ all_children_sorted lower n = true)).
  - done.
  - intros p t Ht. split; [|done]. simpl. by apply Hname.
  - intros p t n _ Ht [Hn Hs]. split; [|done]. rewrite Hn. by apply Hname.
  - intros p rp listing kept children _ Hrp _ Hsub Hall. split.
    + simpl. by apply Hname.
    + unfold all_children_sorted. rewrite forallb_nodes_directory.
      apply andb_true_iff. split.
      * simpl. eapply (is_sorted_by_Forall2 key); [|].
        -- eapply Forall2_impl; [exact Hall|]. intros e c [Hc _].
           simpl. unfold entry_key. by rewrite Hc.
        -- eapply is_sorted_by_sublist; [exact Hsub|]. apply sorted_is_sorted.
      * eapply forallb_Forall2_r; [exact Hall|]. by intros e c [_ Hc].
Qed.

End NamesPreserved.


End TreeInvariants.

(** * The report and the document *)

(** Induction over a tree, with the hypothesis for every child. *)
Lemma Node_forall_ind (P : Node → Prop) :
  (∀ nm ty, P (FileNode nm ty)) →
  (∀ nm ty children, Forall P children → P (DirectoryNode nm ty children)) →
  ∀ n, P n.
Proof.
  intros Hfile Hdir. fix IH 1. intros [nm ty|nm ty children].
  - apply Hfile.
  - apply Hdir. induction children as [|c children IHc]; constructor.
    + apply IH.
    + apply IHc.
Qed.

Lemma count_nodes_loop (children : list Node) (files dirs : nat) :
  fold_left (λ acc child,
               let '(files, dirs) := acc in
               let '(f, d) := count_nodes child in
               (files + f, dirs + d))
            children (files, dirs)
  = (files + (sum_counts (map count_nodes children)).1,
     dirs + (sum_counts (map count_nodes children)).2).
Proof.
  revert files dirs. induction children as [|c children IH]; intros files dirs.
  - simpl. f_equal; lia.
  - cbn [fold_left]. destruct (count_nodes c) as [f d] eqn:Ec.
    rewrite IH. cbn [map]. rewrite Ec. unfold sum_counts. simpl. f_equal; lia.
Qed.

Lemma length_filter_flat_map {A B : Type} (P : B → Prop) `{∀ x, Decision (P x)}
    (f : A → list B) (l : list A) :
  length (filter P (flat_map f l)) = sum_list (map (λ x, length (filter P (f x))) l).
Proof.
  induction l as [|x l IH]; [reflexivity|].
  simpl. by rewrite filter_app, length_app, IH.
Qed.

(** C3. [count_nodes] is the fold the report needs: a [FileNode] counts as
    one file, a [DirectoryNode] as one directory plus the sums of the counts
    of its children; so it returns the number of [FileNode]s and the number
    of [DirectoryNode]s of the tree, the root among them. *)
Theorem count_nodes_counts :
  (∀ nm ty, count_nodes (FileNode nm ty) = (1, 0))
  ∧ (∀ nm ty children,
       count_nodes (DirectoryNode nm ty children)
       = (0 + (sum_counts (map count_nodes children)).1,
          1 + (sum_counts (map count_nodes children)).2))
  ∧ (∀ n, count_nodes n = (file_count n, directory_count n)).
Proof.
  split; [done|]. split.
  - intros nm ty children. cbn [count_nodes]. apply count_nodes_loop.
  - induction n as [nm ty|nm ty children IH] using Node_forall_ind; [done|].
    cbn [count_nodes]. rewrite count_nodes_loop.
    unfold file_count, directory_count. cbn [nodes].
    rewrite filter_cons_False by done. rewrite filter_cons_True by done.
    cbn [length]. rewrite !length_filter_flat_map.
    unfold sum_counts. cbn [fst snd].
    assert (map fst (map count_nodes children)
            = map (λ c, length (filter (λ m, is_DirectoryNode m = false) (nodes c)))
                children) as ->.
    { induction IH as [|c cs Hc _ IHcs]; [done|].
      cbn [map]. rewrite Hc. cbn [fst]. by rewrite IHcs. }
    assert (map snd (map count_nodes children)
            = map (λ c, length (filter (λ m, is_DirectoryNode m = true) (nodes c)))
                children) as ->.
    { induction IH as [|c cs Hc _ IHcs]; [done|].
      cbn [map]. rewrite Hc. cbn [snd]. by rewrite IHcs. }
    reflexivity.
Qed.

Lemma string_app_assoc (a b c : string) : (a +:+ b) +:+ c = a +:+ (b +:+ c).
Proof.
  induction a as [|x a IH]; [reflexivity|].
  change (String x ((a +:+ b) +:+ c) = String x (a +:+ (b +:+ c))).
  by rewrite IH.
Qed.

Lemma newline_indent_2 (level : nat) :
  newline_indent 2 level = String newline (spaces (2 * level)).
Proof. reflexivity. Qed.

(** The encoder, run on what [asdict] makes of a node, writes the layout of
    the output format. *)
Lemma iterencode_asdict_node (n : Node) :
  ∀ level, iterencode 2 (asdict_node n) level = layout_node level n.
Proof.
  induction n as [nm ty|nm ty children IH] using Node_forall_ind; intros level.
  - cbn [asdict_node iterencode layout_node map String.concat fst snd].
    unfold item_separator, key_separator. rewrite !newline_indent_2.
    by rewrite !string_app_assoc.
  - assert (∀ lv, map (λ v, iterencode 2 v lv) (map asdict_node children)
                  = map (layout_node lv) children) as Hmap.
    { intros lv. induction IH as [|c cs Hc _ IHcs]; [done|].
      cbn [map]. by rewrite Hc, IHcs. }
    cbn [asdict_node layout_node].
    destruct children as [|c children].
    + cbn [iterencode map String.concat fst snd].
      unfold item_separator, key_separator. rewrite !newline_indent_2.
      by rewrite !string_app_assoc.
    + specialize (Hmap (S (S level))).
      change (map asdict_node (c :: children))
        with (asdict_node c :: map asdict_node children) in *.
      set (items := asdict_node c :: map asdict_node children) in *.
      cbn [iterencode map String.concat fst snd].
      subst items. cbn [iterencode]. cbv zeta. rewrite Hmap.
      unfold item_separator, key_separator. rewrite !newline_indent_2.
      by rewrite !string_app_assoc.
Qed.

Lemma escape_unescaped (s : string) :
  string_forall unescaped s = true → escape s = s.
Proof.
  induction s as [|c s IH]; [done|]. simpl. intros Hs.
  apply andb_true_iff in Hs as [Hc Hs]. rewrite (IH Hs).
  unfold unescaped in Hc. apply andb_true_iff in Hc as [Hc Hlow].
  apply andb_true_iff in Hc as [Hback Hquote].
  apply negb_true_iff, bool_decide_eq_false in Hback, Hquote, Hlow.
  unfold escape_char.
  rewrite (decide_False _ _ Hback), (decide_False _ _ Hquote).
  repeat (rewrite decide_False by lia). reflexivity.
Qed.

Lemma non_ascii_unescaped (c : ascii) : non_ascii c = true → unescaped c = true.
Proof.
  unfold non_ascii, unescaped. intros Hc. apply bool_decide_eq_true in Hc.
  rewrite !andb_true_iff, !negb_true_iff, !bool_decide_eq_false.
  repeat split.
  - intros ->. vm_compute in Hc. lia.
  - intros ->. vm_compute in Hc. lia.
  - lia.
Qed.

(** The document of a small tree, line by line. *)
Example json_dump_sample :
  json_dump (mkTreeStructure
               (DirectoryNode "d" "folder"
                  [FileNode "a.txt" "file"; DirectoryNode "e" "folder" []]))
  = unlines
      [ "{";
        "  " +:+ quoted "root" +:+ ": {";
        "    " +:+ quoted "name" +:+ ": " +:+ quoted "d" +:+ ",";
        "    " +:+ quoted "type" +:+ ": " +:+ quoted "folder" +:+ ",";
        "    " +:+ quoted "children" +:+ ": [";
        "      {";
        "        " +:+ quoted "name" +:+ ": " +:+ quoted "a.txt" +:+ ",";
        "        " +:+ quoted "type" +:+ ": " +:+ quoted "file";
        "      },";
        "      {";
        "        " +:+ quoted "name" +:+ ": " +:+ quoted "e" +:+ ",";
        "        " +:+ quoted "type" +:+ ": " +:+ quoted "folder" +:+ ",";
        "        " +:+ quoted "children" +:+ ": []";
        "      }";
        "    ]";
        "  }";
        "}" ].
Proof. by vm_compute. Qed.

(** A name with a quote, a backslash, a tabulation and the two bytes of a
    letter outside ASCII: the first three are escaped, the bytes are not. *)
Example encode_basestring_sample :
  encode_basestring
    (String "a" (String dquote (String backslash (String "009"
       (String "195" (String "169" EmptyString))))))
  = quoted
      (String "a" (String backslash (String dquote (String backslash
         (String backslash (String backslash (String "t"
            (String "195" (String "169" EmptyString))))))))).
Proof. by vm_compute. Qed.

(** C10. In the document, the object of a node has a [children] key
    exactly when the node is a [DirectoryNode]: a directory without
    children is written with the key and an empty list, a [FileNode]
    without the key. *)
Theorem children_key_iff_directory :
  (∀ n, "children" ∈ dict_keys (asdict_node n) ↔ is_DirectoryNode n = true)
  ∧ (∀ nm ty,
       asdict_node (DirectoryNode nm ty [])
       = PDict [("name", PStr nm); ("type", PStr ty); ("children", PList [])])
  ∧ (∀ nm ty level,
       iterencode 2 (asdict_node (DirectoryNode nm ty [])) level
       = "{" +:+ newline_indent 2 (S level)
         +:+ encode_basestring "name" +:+ ": " +:+ encode_basestring nm
         +:+ "," +:+ newline_indent 2 (S level)
         +:+ encode_basestring "type" +:+ ": " +:+ encode_basestring ty
         +:+ "," +:+ newline_indent 2 (S level)
         +:+ encode_basestring "children" +:+ ": " +:+ "[]"
         +:+ newline_indent 2 level +:+ "}")
  ∧ (∀ nm ty, dict_keys (asdict_node (FileNode nm ty)) = ["name"; "type"]).
Proof.
  split; [|split; [done|split; [|done]]].
  - intros [nm ty|nm ty children]; simpl.
    + rewrite !elem_of_cons, elem_of_nil. split; [|done].
      intros [H|[H|[]]]; discriminate.
    + rewrite !elem_of_cons. split; [done|]. intros _. right. right. by left.
  - intros nm ty level.
    cbn [asdict_node iterencode map String.concat fst snd].
    unfold item_separator, key_separator. by rewrite !string_app_assoc.
Qed.


(** * The sample filesystems *)

Lemma fs_of_disk_resolve_preserves_name (d : disk) :
  links_keep_names d = true → resolve_preserves_name (fs_of_disk d).
Proof.
  intros Hd p t. simpl.
  induction d as [|[q i] d IH]; simpl in *.
  - intros [= <-]. done.
  - apply andb_true_iff in Hd as [Hq Hd].
    destruct (decide (p = q)) as [->|Hne]; [|by apply IH].
    destruct i; try (intros [= <-]; done).
    intros [= <-]. by apply bool_decide_eq_true in Hq.
Qed.

(** C1. Two sibling links to one real directory are not expanded: the scan
    of each link puts the target in [visited] and then scans the target,
    which finds itself visited; each link comes out as a [FileNode] named
    after the target, with a cycle warning.  Scanned on its own, the target
    is a directory with its file. *)
Theorem sibling_symlinks_not_expanded :
  (∀ n, gather_tree ascii_lower (fs_of_disk disk_siblings) (3 + n) ["lib"]
        = Some (Return (mkTreeStructure
                          (DirectoryNode "lib" "folder"
                             [FileNode "real" "file"; FileNode "real" "file"])),
                [(INFO, Scanning_directory ["lib"]);
                 (WARNING, Cycle_detected ["real"]);
                 (WARNING, Cycle_detected ["real"])]))
  ∧ (∀ n, scan_directory ascii_lower (fs_of_disk disk_siblings) (2 + n) ["real"] ∅
          = Some (Return (DirectoryNode "real" "folder" [FileNode "f.txt" "file"]),
                  ∅, [])).
Proof.
  split; intros n.
  - unfold gather_tree.
    change (fs_exists (fs_of_disk disk_siblings) ["lib"]) with (@Return fs_exn bool true).
    change (fs_is_dir (fs_of_disk disk_siblings) ["lib"]) with (@Return fs_exn bool true).
    cbv iota beta.
    rewrite (scan_directory_fuel_mono ascii_lower (fs_of_disk disk_siblings) 3 (3 + n)
               ["lib"] ∅
               (Return (DirectoryNode "lib" "folder"
                          [FileNode "real" "file"; FileNode "real" "file"]),
                ∅,
                [(WARNING, Cycle_detected ["real"]);
                 (WARNING, Cycle_detected ["real"])])); [reflexivity|lia|].
    by vm_compute.
  - apply (scan_directory_fuel_mono ascii_lower (fs_of_disk disk_siblings) 2); [lia|].
    by vm_compute.
Qed.

(** * The claims at sample inputs *)


Lemma symlink_cycle_witness :
  scan_directory ascii_lower (fs_of_disk disk_mixed) 1 ["home"; "sub"; "up"]
    ({[ ["home"; "sub"] ]} ∪ {[ ["home"] ]})
  = Some (Return (FileNode "home" "file"), {[ ["home"; "sub"] ]} ∪ {[ ["home"] ]},
          [(WARNING, Symlink_cycle_detected ["home"; "sub"; "up"])])
  ∧ descends (fs_of_disk disk_mixed)
      ["home"; "sub"] ({[ ["home"] ]} ∪ ∅)
      ["home"; "sub"; "up"] ({[ ["home"; "sub"] ]} ∪ ({[ ["home"] ]} ∪ ∅))
  ∧ scan_directory ascii_lower (fs_of_disk disk_mixed) 1 ["home"; "sub"; "up"]
      ({[ ["home"; "sub"] ]} ∪ ({[ ["home"] ]} ∪ ∅))
    = Some (Return (FileNode "home" "file"),
            {[ ["home"; "sub"] ]} ∪ ({[ ["home"] ]} ∪ ∅),
            [(WARNING, Symlink_cycle_detected ["home"; "sub"; "up"])])
  ∧ ∃ r visited' log,
      scan_directory ascii_lower (fs_of_disk disk_mixed) 10 ["home"] ∅
      = Some (r, visited', log).
Proof.
  destruct (symlink_cycle_is_terminal ascii_lower (fs_of_disk disk_mixed))
    as (Hcycle & Hbelow & Hends).
  assert (descends (fs_of_disk disk_mixed)
            ["home"; "sub"] ({[ ["home"] ]} ∪ ∅)
            ["home"; "sub"; "up"] ({[ ["home"; "sub"] ]} ∪ ({[ ["home"] ]} ∪ ∅)))
    as Hdesc.
  { eapply descends_step; [|apply descends_refl].
    apply (subscan_entry (fs_of_disk disk_mixed) ["home"; "sub"] ({[ ["home"] ]} ∪ ∅)
             ["home"; "sub"] [["home"; "sub"; "up"]; ["home"; "sub"; "B.txt"]]
             ["home"; "sub"; "up"]); try reflexivity.
    - rewrite elem_of_union, elem_of_singleton, elem_of_empty. intros [[=]|[]].
    - left. }
  split; [|split; [exact Hdesc|split]].
  - apply (Hcycle 0 ["home"; "sub"; "up"] _ ["home"]); [reflexivity..|].
    apply elem_of_union_r. by apply elem_of_singleton.
  - apply (Hbelow 0 ["home"] ∅ ["home"; "sub"] ({[ ["home"] ]} ∪ ∅)
             ["home"; "sub"; "up"] ({[ ["home"; "sub"] ]} ∪ ({[ ["home"] ]} ∪ ∅))
             ["home"]);
      [|reflexivity|reflexivity|exact Hdesc|reflexivity|reflexivity].
    apply (subscan_entry (fs_of_disk disk_mixed) ["home"] ∅ ["home"]
             (map (λ e, ["home"; e])
                ["sub"; "Locked"; "a.txt"; "secret"; "dangling"; "back"])
             ["home"; "sub"]); try reflexivity.
    + apply not_elem_of_empty.
    + left.
  - destruct (Hends (disk_paths disk_mixed) 10 ["home"] ∅)
      as (r & visited' & log & Hscan & _).
    + by vm_compute.
    + apply (bool_decide_eq_true_1 (["home"] ∈ disk_paths disk_mixed)). by vm_compute.
    + vm_compute. lia.
    + by exists r, visited', log.
Defined.


Lemma invalid_root_path_witness :
  main ascii_lower (fs_of_disk disk_mixed) 5 ["nowhere"] ["out.json"]
  = Some (1%Z, mkWorld [(ERROR, Invalid_input (Path_does_not_exist ["nowhere"]))] [] [])
  ∧ main ascii_lower (fs_of_disk disk_mixed) 5 ["home"; "a.txt"] ["out.json"]
    = Some (1%Z, mkWorld [(ERROR, Invalid_input (Path_is_not_a_directory ["home"; "a.txt"]))]
                   [] []).
Proof.
  split.
  - apply (proj2 (invalid_root_path ascii_lower (fs_of_disk disk_mixed) 5 ["nowhere"])
             _ []). reflexivity.
  - apply (proj2 (invalid_root_path ascii_lower (fs_of_disk disk_mixed) 5 ["home"; "a.txt"])
             _ []). reflexivity.
Defined.

Lemma directory_scan_witness :
  scan_directory ascii_lower (fs_of_disk disk_mixed) 3 ["home"] ∅
  = Some (Return (DirectoryNode "home" "folder"
                    [FileNode "a.txt" "file"; FileNode "home" "file";
                     FileNode "dangling" "file";
                     DirectoryNode "sub" "folder"
                       [FileNode "B.txt" "file"; FileNode "home" "file"]]),
          ∅,
          [(WARNING, Symlink_cycle_detected ["home"; "back"]);
           (WARNING, Could_not_resolve_symlink ["home"; "dangling"] OSError);
           (ERROR, Could_not_read_directory ["home"; "Locked"] PermissionError);
           (ERROR, Error_accessing ["home"; "Locked"] PermissionError);
           (WARNING, Could_not_access ["home"; "Locked"] PermissionError);
           (ERROR, Error_accessing ["home"; "secret"] PermissionError);
           (WARNING, Could_not_access ["home"; "secret"] PermissionError);
           (WARNING, Symlink_cycle_detected ["home"; "sub"; "up"])])
  ∧ ∃ log,
      scan_directory ascii_lower (fs_of_disk disk_mixed) 3 ["home"; "Locked"]
        {[ ["home"] ]}
      = Some (Raise PermissionError, {[ ["home"; "Locked"] ]} ∪ {[ ["home"] ]}, log).
Proof.
  split.
  - destruct (directory_scan_skips_failed_entries ascii_lower (fs_of_disk disk_mixed)
                2 ["home"] ∅ ["home"]) as (Hlisted & _ & _);
      [reflexivity|reflexivity|apply not_elem_of_empty|reflexivity|reflexivity|].
    destruct (Hlisted _ eq_refl) as [Hscan _]; [by vm_compute|].
    rewrite Hscan. by vm_compute.
  - destruct (directory_scan_skips_failed_entries ascii_lower (fs_of_disk disk_mixed)
                2 ["home"; "Locked"] {[ ["home"] ]} ["home"; "Locked"])
      as (_ & Hraised & _);
      [reflexivity|reflexivity| |reflexivity|reflexivity|].
    + rewrite elem_of_singleton. discriminate.
    + destruct (Hraised PermissionError eq_refl) as (log & Hscan & _).
      by exists log.
Defined.



